(** * d2backup notebooks: the helpers of the notebooks

    The notebooks share one helper, [get_resource], which reads the text
    captured from a [kubectl apply] cell and extracts the name of the
    created resource with

      re.search(r"^(.+)\s+created", out)

    This file embeds that helper (both copies found in the repository)
    together with the part of Python's backtracking regular-expression
    engine that the pattern exercises, and proves what the helper returns.
    It then embeds the other helpers the notebooks define: [get_dataset]
    and [predict_number] of the Horovod trainer, with Python's slices;
    [add_suffix] of the metadata notebooks; and the stripping of the
    Docker credentials in the Fairing notebook. *)

From Stdlib Require Import String Ascii.
From Stdlib Require Import List NArith ZArith Arith Bool Lia Permutation.
From Stdlib Require QArith.
From Stdlib Require DecimalString.
Import ListNotations.

(** ** Python text *)

(** A Python [str] is a sequence of Unicode code points. *)
Definition codepoint := N.
Definition str := list codepoint.

(** Text written as a literal in the source: every character of the
    notebooks' literals is ASCII, so its code point is its byte. *)
Definition lit (s : string) : str := map N_of_ascii (list_ascii_of_string s).
Arguments lit s%_string.

(** The line feed, the one character [.] refuses. *)
Definition LF : codepoint := 10%N.

(** [Py_UNICODE_ISSPACE]: what [\s] accepts in a [str] pattern. *)
Definition is_space (c : codepoint) : bool :=
  ((9 <=? c) && (c <=? 13) ||
   (28 <=? c) && (c <=? 32) ||
   (c =? 133) || (c =? 160) || (c =? 5760) ||
   (8192 <=? c) && (c <=? 8202) ||
   (c =? 8232) || (c =? 8233) || (c =? 8239) || (c =? 8287) ||
   (c =? 12288))%N.

(** [s.startswith(w)] on lists of code points. *)
Fixpoint startswith (w s : str) : bool :=
  match w, s with
  | [], _ => true
  | _ :: _, [] => false
  | a :: w', b :: s' => (b =? a)%N && startswith w' s'
  end.

(** ** The regular-expression engine *)

Module Sre.

(** Single-character sets. *)
Inductive charset :=
| ANY                (* .   any character but a line feed (no DOTALL) *)
| CATEGORY_SPACE.    (* \s  Unicode white space *)

Definition charset_matches (cs : charset) (c : codepoint) : bool :=
  match cs with
  | ANY => negb (c =? LF)%N
  | CATEGORY_SPACE => is_space c
  end.

(** The compiled form of a pattern: a flat list of operations, a capture
    group being bracketed by two marks.  [REPEAT_ONE lo cs] is the greedy
    repetition of a single-character set, at least [lo] times and without
    an upper bound. *)
Inductive opcode :=
| AT_BEGINNING                          (* ^ without MULTILINE *)
| AT_BEGINNING_LINE                     (* ^ with MULTILINE *)
| MARK (i : nat)
| LITERAL (c : codepoint)
| REPEAT_ONE (lo : nat) (cs : charset).

Definition marks := list (nat * nat).

Fixpoint lastmark (i : nat) (ms : marks) : option nat :=
  match ms with
  | [] => None
  | (j, p) :: ms' => if Nat.eqb j i then Some p else lastmark i ms'
  end.

(** How many leading characters of [s] belong to [cs]. *)
Fixpoint count (cs : charset) (s : str) : nat :=
  match s with
  | c :: s' => if charset_matches cs c then S (count cs s') else 0
  | [] => 0
  end.

(** The tail of a greedy repetition that has consumed [n] characters from
    [pos]: try the rest of the pattern after [n] characters, then after
    [n - 1], ... and give up below [lo]. *)
Fixpoint backtrack {R : Type} (k : nat -> option R) (pos lo n : nat)
  : option R :=
  if n <? lo then None
  else match k (pos + n) with
       | Some r => Some r
       | None => match n with
                 | 0 => None
                 | S n' => backtrack k pos lo n'
                 end
       end.

Definition line_start (text : str) (pos : nat) : bool :=
  match pos with
  | 0 => true
  | S p => match nth_error text p with
           | Some c => (c =? LF)%N
           | None => false
           end
  end.

(** Match [code] against [text] from [pos]; on success, the end position
    and the marks set on the way. *)
Fixpoint sre_match (text : str) (code : list opcode) (pos : nat)
         (ms : marks) : option (nat * marks) :=
  match code with
  | [] => Some (pos, ms)
  | AT_BEGINNING :: code' =>
      if Nat.eqb pos 0 then sre_match text code' pos ms else None
  | AT_BEGINNING_LINE :: code' =>
      if line_start text pos then sre_match text code' pos ms else None
  | MARK i :: code' => sre_match text code' pos ((i, pos) :: ms)
  | LITERAL c :: code' =>
      match nth_error text pos with
      | Some x => if (x =? c)%N then sre_match text code' (S pos) ms
                  else None
      | None => None
      end
  | REPEAT_ONE lo cs :: code' =>
      backtrack (fun p => sre_match text code' p ms)
                pos lo (count cs (skipn pos text))
  end.

(** A match object: the subject, the span of the match and the marks. *)
Record Match := mkMatch {
  m_string : str;
  m_start : nat;
  m_end : nat;
  m_marks : marks
}.

(** [m.group(g)] for [g >= 1]: the text between the two marks of group
    [g], or [None] when the group took no part in the match. *)
Definition slice (s : str) (a b : nat) : str := firstn (b - a) (skipn a s).

Definition group (m : Match) (g : nat) : option str :=
  match g with
  | 0 => Some (slice (m_string m) (m_start m) (m_end m))
  | S g' =>
      match lastmark (2 * g') (m_marks m), lastmark (2 * g' + 1) (m_marks m) with
      | Some a, Some b => Some (slice (m_string m) a b)
      | _, _ => None
      end
  end.

(** [search]: the first start position, scanning left to right, from
    which the pattern matches. *)
Fixpoint search_from (text : str) (code : list opcode) (start fuel : nat)
  : option Match :=
  match sre_match text code start [] with
  | Some (e, ms) => Some (mkMatch text start e ms)
  | None => match fuel with
            | 0 => None
            | S fuel' => search_from text code (S start) fuel'
            end
  end.

Definition search (code : list opcode) (text : str) : option Match :=
  search_from text code 0 (length text).

End Sre.

Import Sre.

(** ** The pattern of the notebooks *)

Definition created : str := lit "created".

(** [r"^(.+)\s+created"], compiled without flags:
    [^] is [AT_BEGINNING]; [(.+)] is group 1, marks 0 and 1 around a greedy
    repetition of [.]; [\s+] a greedy repetition of white space; then the
    seven literals. *)
Definition pattern : list opcode :=
  [AT_BEGINNING; MARK 0; REPEAT_ONE 1 ANY; MARK 1; REPEAT_ONE 1 CATEGORY_SPACE]
  ++ map LITERAL created.

(** The same pattern text compiled with [re.MULTILINE], which the source
    does not pass: kept to compare with. *)
Definition pattern_multiline : list opcode :=
  [AT_BEGINNING_LINE; MARK 0; REPEAT_ONE 1 ANY; MARK 1;
   REPEAT_ONE 1 CATEGORY_SPACE] ++ map LITERAL created.

(** ** The helper *)

(** [IPython.utils.capture.CapturedIO], as far as its text goes. *)
Record CapturedIO := mkCapturedIO {
  stdout : str;
  stderr : str
}.

Inductive exn := Exception (msg : str).

(** What a call does: return a value ([None] or a [str]) or raise. *)
Inductive outcome :=
| Return (v : option str)
| Raise (e : exn).

(** The copy of the Spark and Horovod notebook. *)
Definition get_resource (captured_io : CapturedIO) : outcome :=
  let out := stdout captured_io in
  let matches := search pattern out in
  match matches with
  | Some m => Return (group m 1)
  | None =>
      Raise (Exception (lit "Cannot get resource as its creation failed: " ++ out))
  end.

(** The copy of the TensorFlow checkpoint notebook. *)
Module TensorFlowCheckpoint.

Definition get_resource (captured_io : CapturedIO) : outcome :=
  let out := stdout captured_io in
  let matches := search pattern out in
  match matches with
  | Some m => Return (group m 1)
  | None =>
      Raise (Exception (lit "Cannot get resource as its creation failed: "
                        ++ out ++ lit ". It may already exist."))
  end.

End TensorFlowCheckpoint.

(** Captured standard output alone (the cells run with [--no-stderr]). *)
Definition captured (out : str) : CapturedIO := mkCapturedIO out [].


(** ** Reading the pattern off the text *)

(** [s] goes on with white space and then the token: what [\s+created]
    asks of the text after the name.  The token starts with a letter, so
    the white space taken is the whole run. *)
Definition space_created (s : str) : bool :=
  let m := count CATEGORY_SPACE s in
  (1 <=? m) && startswith created (skipn m s).

(** Where group 1 ends: the largest [p >= 1], within the first line, after
    which the text goes on with white space and the token. *)
Definition name_end (text : str) : option nat :=
  backtrack (fun p => if space_created (skipn p text) then Some p else None)
            0 1 (count ANY text).

(** The end of the match and the marks that go with a name ending at [p]. *)
Definition match_of_name_end (text : str) (p : nat) : nat * marks :=
  (p + count CATEGORY_SPACE (skipn p text) + length created, [(1, p); (0, 0)]).

Definition all_space (ws : str) : Prop := forall c, In c ws -> is_space c = true.

(** [s] is white space, then the token, then anything. *)
Definition then_created (s : str) : Prop :=
  exists ws tl, ws <> [] /\ all_space ws /\ s = ws ++ created ++ tl.

(** [text] opens with [name], a non-empty stretch of its first line, and
    goes on with white space and the token. *)
Definition confirms (text name : str) : Prop :=
  name <> [] /\ ~ In LF name /\
  exists tl, text = name ++ tl /\ then_created tl.

(** The lines of a text, cut at line feeds. *)
Fixpoint lines (s : str) : list str :=
  match s with
  | [] => [[]]
  | c :: s' =>
      if (c =? LF)%N then [] :: lines s'
      else match lines s' with
           | l :: ls => (c :: l) :: ls
           | [] => [[c]]
           end
  end.


(** The error message of the Spark and Horovod copy, for [out]. *)
Definition not_created (out : str) : exn :=
  Exception (lit "Cannot get resource as its creation failed: " ++ out).

(** ** Python values beyond text *)

(** The built-in exceptions the trainer code can meet.  A [KeyError] is
    kept with the key that was asked for (numpy words a message around
    it). *)
Inductive py_error :=
| ValueError (msg : str)
| KeyError (key : str).

(** A computation that returns or raises. *)
Inductive py (A : Type) :=
| Done (a : A)
| Raised (e : py_error).
Arguments Done {A} a.
Arguments Raised {A} e.

Definition bind {A B : Type} (c : py A) (k : A -> py B) : py B :=
  match c with
  | Done a => k a
  | Raised e => Raised e
  end.

Notation "x <- c ;; k" := (bind c (fun x => k))
  (at level 61, c at next level, right associativity).

(** *** Slices

    [a[start:stop:step]] on a sequence of [length] items, Python [int]s
    being unbounded ([Z]) and an omitted bound [None]. *)

(** One bound, brought into range ([PySlice_AdjustIndices]). *)
Definition adjust_index (length step i : Z) : Z :=
  (if i <? 0 then
     let i' := i + length in
     if i' <? 0 then (if step <? 0 then -1 else 0) else i'
   else if length <=? i then (if step <? 0 then length - 1 else length)
   else i)%Z.

(** The first index, the step and the number of items of a slice; a step
    of zero is refused. *)
Definition slice_indices (start stop step : option Z) (length : Z)
  : py (Z * Z * Z) :=
  let step := match step with Some s => s | None => 1%Z end in
  if (step =? 0)%Z then Raised (ValueError (lit "slice step cannot be zero"))
  else
    let start := match start with
                 | Some i => adjust_index length step i
                 | None => (if step <? 0 then length - 1 else 0)%Z
                 end in
    let stop := match stop with
                | Some i => adjust_index length step i
                | None => (if step <? 0 then -1 else length)%Z
                end in
    let slicelength :=
      (if step <? 0
       then (if stop <? start then (start - stop - 1) / (- step) + 1 else 0)
       else (if start <? stop then (stop - start - 1) / step + 1 else 0))%Z in
    Done (start, step, slicelength).

(** The copying loop: [n] items from [cur], [step] apart. *)
Fixpoint take_stride {A : Type} (a : list A) (cur step : Z) (n : nat)
  : list A :=
  match n with
  | 0 => []
  | S n' =>
      match nth_error a (Z.to_nat cur) with
      | Some x => x :: take_stride a (cur + step)%Z step n'
      | None => []
      end
  end.

Definition getitem_slice {A : Type} (a : list A) (start stop step : option Z)
  : py (list A) :=
  r <- slice_indices start stop step (Z.of_nat (length a));;
  let '(start, step, slicelength) := r in
  Done (take_stride a start step (Z.to_nat slicelength)).

(** ** The Horovod trainer: [get_dataset] and [predict_number] *)

Section Trainer.

(** An array is the list of its entries along the first axis (an image, a
    label): it has a first axis.  Dividing an entry by the float [255.0]
    is left to numpy and taken to give a value, as it does on numbers;
    what numpy raises on entries of another kind is not part of this
    embedding, and no statement below says that it is not raised. *)
Variable entry : Type.
Variable true_divide_255 : entry -> entry.

Definition ndarray := list entry.

(** An opened [.npz] archive: the arrays by name. *)
Definition NpzFile := list (str * ndarray).

(** [f[key]]. *)
Fixpoint npz_getitem (f : NpzFile) (key : str) : py ndarray :=
  match f with
  | [] => Raised (KeyError key)
  | (k, a) :: f' =>
      if list_eq_dec N.eq_dec k key then Done a else npz_getitem f' key
  end.

(** [get_dataset(rank=0, size=1)], on the archive that [np.load] opened. *)
Definition get_dataset (f : NpzFile) (rank size : Z)
  : py ((ndarray * ndarray) * (ndarray * ndarray)) :=
  a <- npz_getitem f (lit "x_train");;
  x_train <- getitem_slice a (Some rank) None (Some size);;
  a <- npz_getitem f (lit "y_train");;
  y_train <- getitem_slice a (Some rank) None (Some size);;
  a <- npz_getitem f (lit "x_test");;
  x_test <- getitem_slice a (Some rank) None (Some size);;
  a <- npz_getitem f (lit "y_test");;
  y_test <- getitem_slice a (Some rank) None (Some size);;
  let x_train := map true_divide_255 x_train in
  let x_test := map true_divide_255 x_test in
  Done ((x_train, y_train), (x_test, y_test)).

(** The model and what it predicts belong to Keras and numpy; both calls
    are taken to give a value, which is so for a batch of one image. *)
Variable Model : Type.
Variable prediction : Type.
Variable predict : Model -> ndarray -> prediction.
Variable argmax : prediction -> Z.

(** [str(i)] for an [int]. *)
Definition str_of_int (i : Z) : str :=
  lit (DecimalString.NilZero.string_of_int (Z.to_int i)).

(** [predict_number(model, x_test, image_index)]: it yields here the line
    that it prints. *)
Definition predict_number (model : Model) (x_test : ndarray)
           (image_index : Z) : py str :=
  batch <- getitem_slice x_test (Some image_index) (Some (image_index + 1)%Z) None;;
  let pred := predict model batch in
  Done (lit "Model prediction for index " ++ str_of_int image_index
        ++ lit ": " ++ str_of_int (argmax pred) ++ [LF]).

End Trainer.

Arguments npz_getitem {entry} f key.
Arguments get_dataset {entry} true_divide_255 f rank size.
Arguments predict_number {entry Model prediction} predict argmax model x_test image_index.

(** ** The metadata notebooks: [add_suffix] *)

(** A [uuid.UUID]: its 128-bit integer. *)
Record UUID := mkUUID { uuid_int : N }.

(** One hexadecimal digit, lower case. *)
Definition hex_char (d : N) : codepoint :=
  (if d <? 10 then 48 + d else 87 + d)%N.

(** The digits of [n], least significant first and none for zero. *)
Fixpoint hex_lsd (fuel : nat) (n : N) : list N :=
  match fuel with
  | 0 => []
  | S fuel' =>
      if (n =? 0)%N then [] else (n mod 16)%N :: hex_lsd fuel' (n / 16)%N
  end.

(** ['%x' % n]. *)
Definition format_x (n : N) : str :=
  if (n =? 0)%N then [48%N]
  else map hex_char (rev (hex_lsd (N.size_nat n) n)).

(** Padding with zeros on the left up to [width] (the [0<width>] flag). *)
Definition zero_pad (width : nat) (s : str) : str :=
  repeat 48%N (width - length s) ++ s.

(** [u.hex], that is ['%032x' % u.int]. *)
Definition UUID_hex (u : UUID) : str := zero_pad 32 (format_x (uuid_int u)).

(** [add_suffix(name)], the UUID drawn by [uuid4()] being an input. *)
Definition add_suffix (name : str) (uuid4 : UUID) : str :=
  name ++ lit "_" ++ UUID_hex uuid4.

(** Reading hexadecimal back, as [int(s, 16)] does on digits. *)
Definition hex_val (c : codepoint) : N :=
  (if c <? 58 then c - 48 else c - 87)%N.

Definition int_of_hex (s : str) : N :=
  fold_left (fun acc c => (16 * acc + hex_val c)%N) s 0%N.

Definition is_hex_lower (c : codepoint) : bool :=
  ((48 <=? c) && (c <=? 57) || (97 <=? c) && (c <=? 102))%N.

(** ** The Fairing notebook: the Docker credentials *)

Fixpoint lstrip (s : str) : str :=
  match s with
  | c :: s' => if is_space c then lstrip s' else s
  | [] => []
  end.

(** [s.rstrip()]: the white space at the end is dropped. *)
Definition rstrip (s : str) : str := rev (lstrip (rev s)).

(** [docker_credentials = creds.stdout.rstrip()]. *)
Definition docker_credentials (creds : CapturedIO) : str :=
  rstrip (stdout creds).

(** ** Shards, sample data and digits: what the statements below use *)



(** Sample data: grey levels as rationals, three training and two test
    items, an image being one grey level. *)
Definition Q := QArith_base.Q.

Definition grey (levels : list Z) : ndarray Q := map QArith_base.inject_Z levels.


Definition divide_255 (x : Q) : Q :=
  QArith_base.Qdiv x (QArith_base.inject_Z 255).

(** The number that digits, least significant first, stand for. *)
Definition value_lsd (ds : list N) : N :=
  fold_right (fun d acc => (d + 16 * acc)%N) 0%N ds.

(** [w in s]: the text [w] occurs somewhere in [s]. *)
Fixpoint occurs (w s : str) : bool :=
  startswith w s ||
  match s with
  | [] => false
  | _ :: s' => occurs w s'
  end.

(** ** The notebook as a state

    What the code of a cell can read and change while it runs: the
    objects that [%%capture] stored, a reference being their address, and
    the text written to standard output so far. *)
Definition ref := nat.

Record World := mkWorld {
  objects : ref -> CapturedIO;
  printed : str
}.

(** A piece of code run in a world: its result and the world it leaves. *)
Definition Run (A : Type) : Type := World -> A * World.

Definition ret {A : Type} (a : A) : Run A := fun w => (a, w).

Definition then_run {A B : Type} (c : Run A) (k : A -> Run B) : Run B :=
  fun w => let (a, w') := c w in k a w'.

(** [o.stdout]: the text the object holds, read without consuming it. *)
Definition getattr_stdout (o : ref) : Run str :=
  fun w => (stdout (objects w o), w).

(** [print(s)]. *)
Definition print (s : str) : Run unit :=
  fun w => (tt, mkWorld (objects w) (printed w ++ s ++ [LF])).

Module Stateful.

(** [get_resource], statement by statement, on a reference to the
    captured object. *)
Definition get_resource (captured_io : ref) : Run outcome :=
  then_run (getattr_stdout captured_io) (fun out =>
  let matches := search pattern out in
  match matches with
  | Some m => ret (Return (group m 1))
  | None =>
      ret (Raise (Exception
                    (lit "Cannot get resource as its creation failed: " ++ out)))
  end).

End Stateful.

(** ** Sample runs *)

Example ex_second_line :
  get_resource (captured (lit "zzz" ++ [LF] ++ lit "foo-resource created"))
  = Raise (Exception (lit "Cannot get resource as its creation failed: "
                      ++ lit "zzz" ++ [LF] ++ lit "foo-resource created")).
Proof. vm_compute. reflexivity. Qed.

Example ex_crossing :
  get_resource (captured (lit "foo-resource created" ++ [LF] ++ lit "created"))
  = Return (Some (lit "foo-resource created")).
Proof. vm_compute. reflexivity. Qed.

(** ** The engine, step by step *)

Section Backtrack.

Variable R : Type.
Variable k : nat -> option R.

Lemma backtrack_None (pos lo n : nat) :
  backtrack k pos lo n = None <->
  (forall m, lo <= m <= n -> k (pos + m) = None).
Proof.
  induction n as [|n IH]; simpl.
  - destruct (0 <? lo) eqn:E.
    + apply Nat.ltb_lt in E. split; [intros _ m Hm; lia | reflexivity].
    + apply Nat.ltb_ge in E. destruct (k (pos + 0)) eqn:K.
      * split; [discriminate|]. intros H.
        rewrite <- K. apply H. lia.
      * split; [|reflexivity]. intros _ m Hm.
        replace m with 0 by lia. exact K.
  - destruct (S n <? lo) eqn:E.
    + apply Nat.ltb_lt in E. split; [intros _ m Hm; lia | reflexivity].
    + apply Nat.ltb_ge in E. destruct (k (pos + S n)) eqn:K.
      * split; [discriminate|]. intros H.
        rewrite <- K. apply H. lia.
      * rewrite IH. split; intros H m Hm.
        -- destruct (Nat.eq_dec m (S n)) as [->|]; [exact K|].
           apply H. lia.
        -- apply H. lia.
Qed.

Lemma backtrack_Some (pos lo n : nat) (r : R) :
  backtrack k pos lo n = Some r <->
  (exists m, lo <= m <= n /\ k (pos + m) = Some r /\
             forall m', m < m' <= n -> k (pos + m') = None).
Proof.
  induction n as [|n IH]; simpl.
  - destruct (0 <? lo) eqn:E.
    + apply Nat.ltb_lt in E. split; [discriminate|].
      intros (m & Hm & _). lia.
    + apply Nat.ltb_ge in E. destruct (k (pos + 0)) eqn:K.
      * split.
        -- intros H. exists 0. repeat split; try lia.
           rewrite K. exact H.
        -- intros (m & Hm & Km & _). replace m with 0 in Km by lia.
           congruence.
      * split; [discriminate|].
        intros (m & Hm & Km & _). replace m with 0 in Km by lia.
        congruence.
  - destruct (S n <? lo) eqn:E.
    + apply Nat.ltb_lt in E. split; [discriminate|].
      intros (m & Hm & _). lia.
    + apply Nat.ltb_ge in E. destruct (k (pos + S n)) eqn:K.
      * split.
        -- intros H. exists (S n). repeat split; try lia.
           rewrite K. exact H.
        -- intros (m & Hm & Km & Hmax).
           destruct (Nat.eq_dec m (S n)) as [->|]; [congruence|].
           rewrite Hmax in K by lia. discriminate.
      * rewrite IH. split; intros (m & Hm & Km & Hmax); exists m.
        -- repeat split; try lia; [exact Km|]. intros m' Hm'.
           destruct (Nat.eq_dec m' (S n)) as [->|]; [exact K|].
           apply Hmax. lia.
        -- assert (m <> S n) by (intros ->; congruence).
           repeat split; try lia; [exact Km|]. intros m' Hm'.
           apply Hmax. lia.
Qed.

End Backtrack.

(** Post-composing the continuation post-composes the result. *)
Lemma backtrack_map (A B : Type) (f : A -> B) (k : nat -> option A)
      (k' : nat -> option B) (pos lo n : nat) :
  (forall p, k' p = option_map f (k p)) ->
  backtrack k' pos lo n = option_map f (backtrack k pos lo n).
Proof.
  intros H. induction n as [|n IH]; simpl.
  - destruct (0 <? lo); [reflexivity|].
    rewrite H. destruct (k (pos + 0)); reflexivity.
  - destruct (S n <? lo); [reflexivity|].
    rewrite H. destruct (k (pos + S n)); [reflexivity | exact IH].
Qed.

Lemma skipn_nth_error (text : str) (pos : nat) :
  skipn pos text =
  match nth_error text pos with
  | Some x => x :: skipn (S pos) text
  | None => []
  end.
Proof.
  revert text. induction pos as [|pos IH]; intros [|c text]; simpl; trivial.
Qed.

(** A run of literals succeeds exactly where the subject continues with
    them, and sets no mark. *)
Lemma sre_match_literals (text w : str) (pos : nat) (ms : marks) :
  sre_match text (map LITERAL w) pos ms =
  if startswith w (skipn pos text) then Some (pos + length w, ms) else None.
Proof.
  revert pos. induction w as [|a w IH]; intros pos; simpl.
  - now rewrite Nat.add_0_r.
  - rewrite (skipn_nth_error text pos).
    destruct (nth_error text pos) as [x|]; [|reflexivity].
    destruct (x =? a)%N; simpl; [|reflexivity].
    rewrite IH. now rewrite Nat.add_succ_r.
Qed.

(** The characters counted by [count] belong to the set, the next one does
    not. *)
Lemma count_inside (cs : charset) (s : str) (j : nat) :
  j < count cs s ->
  exists c tl, skipn j s = c :: tl /\ charset_matches cs c = true.
Proof.
  revert j. induction s as [|c s IH]; intros j; simpl; [lia|].
  destruct (charset_matches cs c) eqn:E; [|lia].
  destruct j as [|j]; intros Hj.
  - now exists c, s.
  - apply IH. lia.
Qed.

Lemma count_le_length (cs : charset) (s : str) : count cs s <= length s.
Proof.
  induction s as [|c s IH]; simpl; [lia|].
  destruct (charset_matches cs c); simpl; lia.
Qed.

Lemma count_firstn (cs : charset) (s : str) (n : nat) :
  n <= count cs s <->
  n <= length s /\ forallb (charset_matches cs) (firstn n s) = true.
Proof.
  revert n. induction s as [|c s IH]; intros [|n]; simpl.
  - split; [intros; split; [lia | reflexivity] | lia].
  - split; [lia | intros []; lia].
  - split; [intros; split; [lia | reflexivity] | lia].
  - destruct (charset_matches cs c); simpl.
    + rewrite <- !Nat.succ_le_mono. apply IH.
    + split; [lia | intros []; discriminate].
Qed.

Lemma count_app (cs : charset) (a b : str) :
  forallb (charset_matches cs) a = true ->
  count cs (a ++ b) = length a + count cs b.
Proof.
  induction a as [|c a IH]; simpl; [reflexivity|].
  intros H. apply andb_true_iff in H as [-> H]. now rewrite IH.
Qed.

Lemma startswith_app (w s : str) :
  startswith w s = true <-> exists tl, s = w ++ tl.
Proof.
  revert s. induction w as [|a w IH]; intros s; simpl.
  - split; [intros _; now exists s | reflexivity].
  - destruct s as [|b s].
    + split; [discriminate | intros [tl H]; discriminate].
    + rewrite andb_true_iff, IH, N.eqb_eq. split.
      * intros [-> [tl ->]]. now exists tl.
      * intros [tl H]. injection H as -> ->. split; [reflexivity|].
        now exists tl.
Qed.

(** ** The pattern on a text *)

Lemma created_letters : created = [99; 114; 101; 97; 116; 101; 100]%N.
Proof. reflexivity. Qed.

Lemma all_space_forallb (ws : str) :
  all_space ws <-> forallb (charset_matches CATEGORY_SPACE) ws = true.
Proof. unfold all_space. now rewrite forallb_forall. Qed.

Lemma no_LF_forallb (s : str) :
  ~ In LF s <-> forallb (charset_matches ANY) s = true.
Proof.
  rewrite forallb_forall. split.
  - intros H c Hc. simpl. apply negb_true_iff, N.eqb_neq.
    intros ->. exact (H Hc).
  - intros H Hin. specialize (H LF Hin). discriminate.
Qed.

(** The token does not start with white space. *)
Lemma startswith_created_space (c : codepoint) (tl : str) :
  is_space c = true -> startswith created (c :: tl) = false.
Proof.
  intros H. rewrite created_letters. simpl.
  destruct (c =? 99)%N eqn:E; [|reflexivity].
  apply N.eqb_eq in E. subst c. discriminate.
Qed.

Lemma skipn_add (s : str) (p m : nat) : skipn (p + m) s = skipn m (skipn p s).
Proof. now rewrite skipn_skipn, Nat.add_comm. Qed.

Lemma space_created_spec (s : str) :
  space_created s = true <-> then_created s.
Proof.
  unfold space_created, then_created. rewrite andb_true_iff, Nat.leb_le.
  split.
  - intros [Hm Hw]. apply startswith_app in Hw as [tl Htl].
    exists (firstn (count CATEGORY_SPACE s) s), tl. repeat split.
    + intros E. apply (f_equal (@length _)) in E.
      rewrite length_firstn in E. simpl in E.
      pose proof (count_le_length CATEGORY_SPACE s). lia.
    + apply all_space_forallb.
      now apply (count_firstn CATEGORY_SPACE s (count CATEGORY_SPACE s)).
    + rewrite <- Htl. symmetry. apply firstn_skipn.
  - intros (ws & tl & Hne & Hws & ->).
    assert (Hc : count CATEGORY_SPACE (ws ++ created ++ tl) = length ws).
    { rewrite count_app by now apply all_space_forallb.
      rewrite created_letters. simpl. lia. }
    rewrite Hc. split.
    + destruct ws; [congruence | simpl; lia].
    + rewrite skipn_app, skipn_all, Nat.sub_diag.
      apply startswith_app. now exists tl.
Qed.

(** [\s+created] from [p], after the marks [ms]. *)
Lemma space_tail (text : str) (p : nat) (ms : marks) :
  backtrack (fun q => sre_match text (map LITERAL created) q ms)
            p 1 (count CATEGORY_SPACE (skipn p text)) =
  if space_created (skipn p text)
  then Some (p + count CATEGORY_SPACE (skipn p text) + length created, ms)
  else None.
Proof.
  unfold space_created.
  set (m := count CATEGORY_SPACE (skipn p text)).
  destruct (1 <=? m) eqn:Hm; cbn [andb].
  - apply Nat.leb_le in Hm.
    destruct (startswith created (skipn m (skipn p text))) eqn:Hw.
    + apply backtrack_Some. exists m. repeat split; try lia.
      rewrite sre_match_literals, skipn_add, Hw. reflexivity.
    + apply backtrack_None. intros j Hj.
      rewrite sre_match_literals, skipn_add.
      destruct (Nat.eq_dec j m) as [->|Hjm]; [now rewrite Hw|].
      destruct (count_inside CATEGORY_SPACE (skipn p text) j)
        as (c & tl & -> & Hc); [fold m; lia|].
      now rewrite startswith_created_space.
  - apply Nat.leb_gt in Hm. apply backtrack_None. intros j Hj. lia.
Qed.

Lemma sre_match_pattern (text : str) :
  sre_match text pattern 0 [] = option_map (match_of_name_end text) (name_end text).
Proof.
  unfold pattern, name_end. cbn [app sre_match Nat.eqb skipn].
  apply backtrack_map. intros p. rewrite space_tail.
  destruct (space_created (skipn p text)); reflexivity.
Qed.

(** Without MULTILINE, [^] fails everywhere but at offset 0. *)
Lemma sre_match_pattern_later (text : str) (start : nat) (ms : marks) :
  sre_match text pattern (S start) ms = None.
Proof. reflexivity. Qed.

Lemma search_from_later (text : str) (start fuel : nat) :
  search_from text pattern (S start) fuel = None.
Proof.
  revert start. induction fuel as [|fuel IH]; intros start;
    cbn [search_from]; rewrite sre_match_pattern_later; [reflexivity|].
  apply IH.
Qed.

Lemma search_pattern (text : str) :
  search pattern text =
  match sre_match text pattern 0 [] with
  | Some (e, ms) => Some (mkMatch text 0 e ms)
  | None => None
  end.
Proof.
  unfold search. destruct (length text); cbn [search_from];
    destruct (sre_match text pattern 0 []) as [[e ms]|]; try reflexivity.
  apply search_from_later.
Qed.

Lemma group1_of_name_end (text : str) (p e : nat) :
  group (mkMatch text 0 e [(1, p); (0, 0)]) 1 = Some (firstn p text).
Proof. unfold group, slice. simpl. now rewrite Nat.sub_0_r. Qed.

(** The helper, read off the text. *)
Lemma get_resource_name_end (captured_io : CapturedIO) :
  get_resource captured_io =
  match name_end (stdout captured_io) with
  | Some p => Return (Some (firstn p (stdout captured_io)))
  | None => Raise (not_created (stdout captured_io))
  end.
Proof.
  unfold get_resource. cbv zeta.
  rewrite search_pattern, sre_match_pattern.
  destruct (name_end (stdout captured_io)) as [p|]; [|reflexivity].
  unfold option_map, match_of_name_end. now rewrite group1_of_name_end.
Qed.

Lemma checkpoint_get_resource_name_end (captured_io : CapturedIO) :
  TensorFlowCheckpoint.get_resource captured_io =
  match name_end (stdout captured_io) with
  | Some p => Return (Some (firstn p (stdout captured_io)))
  | None =>
      Raise (Exception (lit "Cannot get resource as its creation failed: "
                        ++ stdout captured_io ++ lit ". It may already exist."))
  end.
Proof.
  unfold TensorFlowCheckpoint.get_resource. cbv zeta.
  rewrite search_pattern, sre_match_pattern.
  destruct (name_end (stdout captured_io)) as [p|]; [|reflexivity].
  unfold option_map, match_of_name_end. now rewrite group1_of_name_end.
Qed.

(** ** Where the name ends *)

Lemma name_end_Some (text : str) (p : nat) :
  name_end text = Some p <->
  1 <= p <= count ANY text /\
  space_created (skipn p text) = true /\
  (forall p', p < p' <= count ANY text -> space_created (skipn p' text) = false).
Proof.
  unfold name_end. rewrite backtrack_Some. cbn [Nat.add]. split.
  - intros (m & Hm & Hk & Hmax).
    destruct (space_created (skipn m text)) eqn:E; [|discriminate].
    injection Hk as <-. repeat split; try lia; [exact E|].
    intros p' Hp'. specialize (Hmax p' Hp').
    destruct (space_created (skipn p' text)); [discriminate | reflexivity].
  - intros (Hp & E & Hmax). exists p. repeat split; try lia.
    + now rewrite E.
    + intros p' Hp'. now rewrite (Hmax p' Hp').
Qed.

Lemma name_end_None (text : str) :
  name_end text = None <->
  (forall p, 1 <= p <= count ANY text -> space_created (skipn p text) = false).
Proof.
  unfold name_end. rewrite backtrack_None. cbn [Nat.add].
  split; intros H p Hp; specialize (H p Hp);
    destruct (space_created (skipn p text)); congruence.
Qed.

Lemma skipn_length_app (a b : str) : skipn (length a) (a ++ b) = b.
Proof. now rewrite skipn_app, skipn_all, Nat.sub_diag. Qed.

Lemma firstn_length_app (a b : str) : firstn (length a) (a ++ b) = a.
Proof.
  now rewrite firstn_app, firstn_all, Nat.sub_diag, firstn_0, app_nil_r.
Qed.

Lemma count_ANY_name (name tl : str) :
  ~ In LF name -> length name <= count ANY (name ++ tl).
Proof.
  intros H. apply count_firstn. split.
  - rewrite length_app. lia.
  - rewrite firstn_length_app. now apply no_LF_forallb.
Qed.

(** The name found is a confirmed one ... *)
Lemma name_end_confirms (text : str) (p : nat) :
  name_end text = Some p -> confirms text (firstn p text).
Proof.
  intros H. apply name_end_Some in H as ([Hp1 Hp2] & E & _).
  pose proof (count_le_length ANY text) as Hlen.
  repeat split.
  - intros Hnil. apply (f_equal (@length _)) in Hnil.
    rewrite length_firstn in Hnil. simpl in Hnil. lia.
  - apply no_LF_forallb. now apply (count_firstn ANY text p).
  - exists (skipn p text). split.
    + symmetry. apply firstn_skipn.
    + now apply space_created_spec.
Qed.

(** ... and the longest of them. *)
Lemma confirms_name_end (text name : str) :
  confirms text name -> exists p, name_end text = Some p /\ length name <= p.
Proof.
  intros (Hne & Hlf & tl & -> & Htl).
  assert (Hc : length name <= count ANY (name ++ tl)) by now apply count_ANY_name.
  assert (H1 : 1 <= length name) by (destruct name; [congruence | simpl; lia]).
  assert (E : space_created (skipn (length name) (name ++ tl)) = true).
  { rewrite skipn_length_app. now apply space_created_spec. }
  destruct (name_end (name ++ tl)) as [p|] eqn:N.
  - exists p. split; [reflexivity|].
    apply name_end_Some in N as (_ & _ & Hmax).
    destruct (Nat.le_gt_cases (length name) p) as [|Hlt]; [assumption|].
    rewrite Hmax in E by lia. discriminate.
  - rewrite name_end_None in N. rewrite N in E by lia. discriminate.
Qed.

(** A name, one white-space character, the token, and a rest in whose
    first line no white space is followed by the token again. *)
Lemma name_end_single_separator (name rest : str) (w : codepoint) :
  name <> [] -> ~ In LF name -> is_space w = true ->
  (forall i, i <= count ANY rest -> space_created (skipn i rest) = false) ->
  name_end (name ++ w :: created ++ rest) = Some (length name).
Proof.
  intros Hne Hlf Hw Hrest. apply name_end_Some. split; [|split].
  - split; [destruct name; [congruence | simpl; lia]|].
    now apply count_ANY_name.
  - rewrite skipn_length_app. apply space_created_spec.
    exists [w], rest. repeat split; [discriminate|].
    intros c [<-|[]]. exact Hw.
  - intros p' [Hlo Hhi].
    rewrite count_app in Hhi by now apply no_LF_forallb.
    replace p' with (length name + S (p' - length name - 1)) in * by lia.
    set (j := p' - length name - 1) in *.
    rewrite skipn_add, skipn_length_app.
    cbn [count] in Hhi. destruct (charset_matches ANY w); [|lia].
    rewrite created_letters in *. cbn [skipn].
    do 7 (destruct j as [|j]; [reflexivity|]).
    cbn [skipn app]. apply Hrest. cbn in Hhi. lia.
Qed.

(** X1: [get_resource] returns [name] exactly when [name] is the longest
    non-empty stretch of the first line, from the start of the text, that
    white space and the token follow. *)
Lemma get_resource_longest (captured_io : CapturedIO) (name : str) :
  get_resource captured_io = Return (Some name) <->
  confirms (stdout captured_io) name /\
  (forall name', confirms (stdout captured_io) name' ->
                 length name' <= length name).
Proof.
  rewrite get_resource_name_end. split.
  - destruct (name_end (stdout captured_io)) as [p|] eqn:N; [|discriminate].
    intros [= <-]. split; [now apply name_end_confirms|].
    intros name' H'. apply confirms_name_end in H' as (q & Hq & Hle).
    assert (q = p) as -> by congruence.
    apply name_end_Some in N as ([_ Hp] & _).
    pose proof (count_le_length ANY (stdout captured_io)).
    rewrite length_firstn. lia.
  - intros [Hc Hmax].
    destruct (confirms_name_end _ _ Hc) as (p & N & Hle). rewrite N.
    specialize (Hmax _ (name_end_confirms _ _ N)).
    apply name_end_Some in N as ([_ Hp] & _).
    pose proof (count_le_length ANY (stdout captured_io)).
    rewrite length_firstn in Hmax.
    assert (p = length name) as -> by lia.
    destruct Hc as (_ & _ & tl & -> & _). now rewrite firstn_length_app.
Qed.

Lemma occurs_intro (w a b : str) : occurs w (a ++ w ++ b) = true.
Proof.
  induction a as [|c a IH].
  - cbn [app]. destruct (w ++ b) eqn:E; cbn [occurs]; rewrite <- E;
      apply orb_true_iff; left; apply startswith_app; now exists b.
  - cbn [app occurs]. rewrite IH. apply orb_true_r.
Qed.


(** Not every run leaves the world alone: printing does not. *)
Lemma print_changes_world (s : str) (w : World) : snd (print s w) <> w.
Proof.
  unfold print. cbn [snd]. intros E.
  apply (f_equal (fun x => length (printed x))) in E. cbn [printed] in E.
  rewrite !length_app in E. cbn [length] in E. lia.
Qed.

(** ** The claims *)

(** C1, as the code has it: when the captured text OPENS with the line
    "<name> created" (a non-empty name without line feed, one blank, the
    token, the end of the line), and what follows the line does not go on
    with white space and the token again, [get_resource] returns [name]. *)
Theorem C1_first_line_created (name rest : str) :
  name <> [] -> ~ In LF name ->
  rest = [] \/ (exists more, rest = LF :: more) ->
  ~ then_created rest ->
  get_resource (captured (name ++ lit " created" ++ rest)) = Return (Some name).
Proof.
  intros Hne Hlf Hline Hrest.
  rewrite get_resource_name_end. cbn [stdout captured].
  change (lit " created") with (32%N :: created). cbn [app].
  rewrite name_end_single_separator; trivial.
  - now rewrite firstn_length_app.
  - intros i Hi.
    assert (i = 0) as ->
        by (destruct Hline as [->|[more ->]]; simpl in Hi; lia).
    cbn [skipn]. destruct (space_created rest) eqn:E; [|reflexivity].
    apply space_created_spec in E. contradiction.
Qed.

Lemma C1_first_line_created_witness :
  get_resource (captured (lit "foo-resource" ++ lit " created"
                          ++ LF :: lit "service/foo unchanged"))
  = Return (Some (lit "foo-resource")).
Proof.
  apply (C1_first_line_created (lit "foo-resource")
                               (LF :: lit "service/foo unchanged")).
  - discriminate.
  - vm_compute. intuition discriminate.
  - right. now exists (lit "service/foo unchanged").
  - intros H. apply space_created_spec in H. vm_compute in H. discriminate.
Defined.

(** C1 fails as stated: the line "foo-resource created" preceded by another
    line is not found, and followed by a line "created" it yields a longer
    name. *)
Lemma C1_counterexample :
  let preceded := lit "zzz" ++ [LF] ++ lit "foo-resource created" in
  let followed := lit "foo-resource created" ++ [LF] ++ lit "created" in
  (In (lit "foo-resource created") (lines preceded) /\
   get_resource (captured preceded) = Raise (not_created preceded) /\
   get_resource (captured preceded) <> Return (Some (lit "foo-resource"))) /\
  (In (lit "foo-resource created") (lines followed) /\
   get_resource (captured followed)
   = Return (Some (lit "foo-resource created")) /\
   get_resource (captured followed) <> Return (Some (lit "foo-resource"))).
Proof.
  repeat split; try (vm_compute; intuition discriminate).
Qed.

(** C2, as the code has it: the pattern is compiled without MULTILINE, so
    no attempt from a later offset (a later line start included) matches,
    and the outcome of [get_resource] is that of the one attempt made at
    the first character of the text. *)
Theorem C2_anchored_at_text_start (captured_io : CapturedIO) (start : nat) :
  sre_match (stdout captured_io) pattern (S start) [] = None /\
  get_resource captured_io =
  match sre_match (stdout captured_io) pattern 0 [] with
  | Some (e, ms) => Return (group (mkMatch (stdout captured_io) 0 e ms) 1)
  | None => Raise (not_created (stdout captured_io))
  end.
Proof.
  split; [apply sre_match_pattern_later|].
  unfold get_resource. cbv zeta. rewrite search_pattern.
  destruct (sre_match (stdout captured_io) pattern 0 []) as [[e ms]|];
    reflexivity.
Qed.

(** C2 fails as stated: of the three lines "a", "b created", "c created"
    the last two match, the first matching line captures "b" (and so does
    the search with MULTILINE), yet [get_resource] raises. *)
Lemma C2_counterexample :
  let text := lit "a" ++ [LF] ++ lit "b created" ++ [LF] ++ lit "c created" in
  lines text = [lit "a"; lit "b created"; lit "c created"] /\
  get_resource (captured (lit "a")) = Raise (not_created (lit "a")) /\
  get_resource (captured (lit "b created")) = Return (Some (lit "b")) /\
  get_resource (captured (lit "c created")) = Return (Some (lit "c")) /\
  option_map (fun m => group m 1) (search pattern_multiline text)
  = Some (Some (lit "b")) /\
  get_resource (captured text) = Raise (not_created text) /\
  get_resource (captured text) <> Return (Some (lit "b")).
Proof.
  repeat split; try (vm_compute; intuition discriminate).
Qed.




(** C4: whenever [get_resource] returns, what it returns is a string, a
    non-empty one, which stands at the start of the first line of the text
    and is followed there by white space and the word "created". *)
Theorem C4_name_nonempty_before_created (captured_io : CapturedIO)
        (v : option str) :
  get_resource captured_io = Return v ->
  exists name,
    v = Some name /\ name <> [] /\ ~ In LF name /\
    exists ws tl, ws <> [] /\ all_space ws /\
                  stdout captured_io = name ++ ws ++ created ++ tl.
Proof.
  rewrite get_resource_name_end.
  destruct (name_end (stdout captured_io)) as [p|] eqn:N; [|discriminate].
  intros [= <-]. apply name_end_confirms in N.
  destruct N as (Hne & Hlf & tl & Htext & ws & tl' & Hws & Hall & ->).
  exists (firstn p (stdout captured_io)). repeat split; trivial.
  now exists ws, tl'.
Qed.

Lemma C4_name_nonempty_before_created_witness :
  exists name,
    Some (lit "pod/my-job") = Some name /\ name <> [] /\ ~ In LF name /\
    exists ws tl, ws <> [] /\ all_space ws /\
                  stdout (captured (lit "pod/my-job created"))
                  = name ++ ws ++ created ++ tl.
Proof.
  apply (C4_name_nonempty_before_created (captured (lit "pod/my-job created"))).
  vm_compute. reflexivity.
Defined.

(** C5: on "pod/my-job created", a line feed, "some other line",
    [get_resource] returns exactly "pod/my-job". *)
Theorem C5_pod_my_job :
  get_resource (captured (lit "pod/my-job created" ++ [LF]
                          ++ lit "some other line"))
  = Return (Some (lit "pod/my-job")).
Proof. vm_compute. reflexivity. Qed.

(** C6: on the empty text and on "Error: already exists", [get_resource]
    raises the creation-not-confirmed error. *)
Theorem C6_empty_and_already_exists :
  get_resource (captured []) = Raise (not_created []) /\
  get_resource (captured (lit "Error: already exists"))
  = Raise (not_created (lit "Error: already exists")).
Proof. split; vm_compute; reflexivity. Qed.



(** C8: whenever [get_resource] returns, the name is a prefix of the
    captured text and holds no line feed; the match it comes from starts at
    offset 0. *)
Theorem C8_name_is_prefix (captured_io : CapturedIO) (v : option str) :
  get_resource captured_io = Return v ->
  exists name tl,
    v = Some name /\ stdout captured_io = name ++ tl /\ ~ In LF name /\
    exists m, search pattern (stdout captured_io) = Some m /\
              m_start m = 0 /\ group m 1 = Some name.
Proof.
  rewrite get_resource_name_end.
  destruct (name_end (stdout captured_io)) as [p|] eqn:N; [|discriminate].
  intros [= <-]. pose proof (name_end_confirms _ _ N) as (_ & Hlf & _).
  exists (firstn p (stdout captured_io)), (skipn p (stdout captured_io)).
  repeat split; trivial.
  - symmetry. apply firstn_skipn.
  - rewrite search_pattern, sre_match_pattern, N. cbn [option_map].
    unfold match_of_name_end. eexists. split; [reflexivity|].
    split; [reflexivity | apply group1_of_name_end].
Qed.

Lemma C8_name_is_prefix_witness :
  exists name tl,
    Some (lit "a b") = Some name /\
    stdout (captured (lit "a b created" ++ LF :: lit "c created"))
    = name ++ tl /\ ~ In LF name /\
    exists m, search pattern
                (stdout (captured (lit "a b created" ++ LF :: lit "c created")))
              = Some m /\
              m_start m = 0 /\ group m 1 = Some name.
Proof.
  apply (C8_name_is_prefix
           (captured (lit "a b created" ++ LF :: lit "c created"))).
  vm_compute. reflexivity.
Defined.

(** C9: the two copies agree on every input: either both return the same
    name, or both raise, the checkpoint copy with the same message followed
    by ". It may already exist.". *)
Theorem C9_copies_agree (captured_io : CapturedIO) :
  (exists name,
     get_resource captured_io = Return (Some name) /\
     TensorFlowCheckpoint.get_resource captured_io = Return (Some name)) \/
  (exists msg,
     get_resource captured_io = Raise (Exception msg) /\
     msg = lit "Cannot get resource as its creation failed: "
           ++ stdout captured_io /\
     TensorFlowCheckpoint.get_resource captured_io
     = Raise (Exception (msg ++ lit ". It may already exist."))).
Proof.
  rewrite get_resource_name_end, checkpoint_get_resource_name_end.
  destruct (name_end (stdout captured_io)) as [p|].
  - left. now eexists.
  - right. eexists. split; [reflexivity|]. split; [reflexivity|].
    now rewrite <- app_assoc.
Qed.

(** C10, as the code has it: when the name is separated from the token by
    more than one white-space character, none of them a line feed but
    possibly the last, all of them but the last end up in the returned
    name, whatever follows the token: the name returned starts with the
    name and the surplus, and is just that when the token does not occur
    again; "foo  created" gives "foo " with its blank. *)
Theorem C10_surplus_space_kept (name ws rest : str) (w : codepoint) :
  name <> [] -> ~ In LF name ->
  ws <> [] -> all_space ws -> ~ In LF ws ->
  is_space w = true ->
  (exists more,
      get_resource (captured (name ++ ws ++ w :: created ++ rest))
      = Return (Some (name ++ ws ++ more))) /\
  ((forall a b, rest <> a ++ created ++ b) ->
   get_resource (captured (name ++ ws ++ w :: created ++ rest))
   = Return (Some (name ++ ws))).
Proof.
  intros Hne Hlf Hws _ Hwlf Hw.
  assert (Hne' : name ++ ws <> [])
    by (destruct name; [congruence | discriminate]).
  assert (Hlf' : ~ In LF (name ++ ws)) by (rewrite in_app_iff; tauto).
  assert (Htext : name ++ ws ++ w :: created ++ rest
                  = (name ++ ws) ++ w :: created ++ rest)
    by now rewrite <- app_assoc.
  rewrite Htext. split.
  - assert (Hc : confirms ((name ++ ws) ++ w :: created ++ rest) (name ++ ws)).
    { repeat split; trivial. exists (w :: created ++ rest).
      split; [reflexivity|]. exists [w], rest.
      repeat split; [discriminate|]. intros c [<-|[]]. exact Hw. }
    destruct (confirms_name_end _ _ Hc) as (p & N & Hle).
    exists (firstn (p - length (name ++ ws)) (w :: created ++ rest)).
    rewrite get_resource_name_end. cbn [stdout captured]. rewrite N.
    rewrite firstn_app, firstn_all2 by lia. now rewrite <- app_assoc.
  - intros Hrest. rewrite get_resource_name_end. cbn [stdout captured].
    rewrite name_end_single_separator; trivial.
    + now rewrite firstn_length_app.
    + intros i _. destruct (space_created (skipn i rest)) eqn:E; [|reflexivity].
      apply space_created_spec in E as (ws' & tl & _ & _ & E).
      exfalso. apply (Hrest (firstn i rest ++ ws') tl).
      now rewrite <- app_assoc, <- E, firstn_skipn.
Qed.

Lemma C10_surplus_space_kept_witness :
  get_resource (captured (lit "foo  created")) = Return (Some (lit "foo ")) /\
  get_resource (captured (lit "foo  created" ++ [13; 10]%N
                          ++ lit "service/foo unchanged"))
  = Return (Some (lit "foo ")).
Proof.
  split.
  - apply (C10_surplus_space_kept (lit "foo") (lit " ") [] 32%N).
    + discriminate.
    + vm_compute. intuition discriminate.
    + discriminate.
    + intros c [<-|[]]. reflexivity.
    + vm_compute. intuition discriminate.
    + reflexivity.
    + intros a b E. apply (f_equal (@length _)) in E.
      rewrite !length_app, created_letters in E. simpl in E. lia.
  - apply (C10_surplus_space_kept
             (lit "foo") (lit " ")
             ([13; 10]%N ++ lit "service/foo unchanged") 32%N).
    + discriminate.
    + vm_compute. intuition discriminate.
    + discriminate.
    + intros c [<-|[]]. reflexivity.
    + vm_compute. intuition discriminate.
    + reflexivity.
    + intros a b E. pose proof (occurs_intro created a b) as O.
      rewrite <- E in O. vm_compute in O. discriminate.
Defined.

(** C10 fails as stated when a line feed is among the surplus white space:
    [.] does not take it, so "foo", a line feed, a blank, "created" gives
    "foo" and the two separating characters both stay out of the name. *)
Lemma C10_counterexample :
  let text := lit "foo" ++ [LF] ++ lit " created" in
  is_space LF = true /\ is_space 32%N = true /\
  text = lit "foo" ++ [LF; 32%N] ++ created /\
  get_resource (captured text) = Return (Some (lit "foo")) /\
  get_resource (captured text) <> Return (Some (lit "foo" ++ [LF])).
Proof.
  repeat split; try (vm_compute; intuition discriminate).
Qed.

(** ** Further properties of [get_resource] *)

Lemma backtrack_ext {R : Type} (k k' : nat -> option R) (pos lo n : nat) :
  (forall m, lo <= m <= n -> k (pos + m) = k' (pos + m)) ->
  backtrack k pos lo n = backtrack k' pos lo n.
Proof.
  intros H. destruct (backtrack k' pos lo n) as [r|] eqn:E.
  - apply backtrack_Some in E as (m & Hm & Km & Hmax).
    apply backtrack_Some. exists m. repeat split; try lia.
    + now rewrite H.
    + intros m' Hm'. rewrite H by lia. now apply Hmax.
  - rewrite backtrack_None in E. apply backtrack_None.
    intros m Hm. rewrite H by lia. now apply E.
Qed.

Lemma created_no_LF : ~ In LF created.
Proof. vm_compute. intuition discriminate. Qed.

Lemma all_space_app (a b : str) :
  all_space (a ++ b) <-> all_space a /\ all_space b.
Proof.
  unfold all_space. split.
  - intros H. split; intros c Hc; apply H, in_app_iff; tauto.
  - intros [Ha Hb] c Hc. apply in_app_iff in Hc as [Hc|Hc]; auto.
Qed.

(** Past a first line [s], only a next line that goes on with the token
    can make [s] and what follows go on with it. *)
Lemma then_created_first_line (s rest : str) :
  ~ In LF s -> ~ then_created (LF :: rest) ->
  then_created (s ++ LF :: rest) <-> then_created s.
Proof.
  intros Hs Hrest. split.
  - intros (ws & tl & Hne & Hws & E).
    rewrite app_assoc in E. apply app_eq_app in E as [l [[E1 E2]|[E1 E2]]].
    + exists ws, l. repeat split; trivial. now rewrite app_assoc.
    + destruct l as [|c l].
      * exists ws, []. repeat split; trivial.
        now rewrite app_nil_r in *.
      * injection E2 as <- E2.
        apply app_eq_app in E1 as [l' [[E3 E4]|[E3 E4]]].
        -- destruct l' as [|c' l'].
           ++ simpl in E4. exfalso. rewrite created_letters in E4.
              discriminate.
           ++ injection E4 as <- E4. exfalso. apply Hrest.
              exists (LF :: l'), tl. repeat split; [discriminate| |].
              ** subst ws. apply all_space_app in Hws. tauto.
              ** simpl. now rewrite E2, E4, <- app_assoc.
        -- exfalso. apply created_no_LF. rewrite E4.
           apply in_app_iff. right. now left.
  - intros (ws & tl & Hne & Hws & ->).
    exists ws, (tl ++ LF :: rest). repeat split; trivial.
    now rewrite <- !app_assoc.
Qed.

Lemma count_ANY_line (l : str) : ~ In LF l -> count ANY l = length l.
Proof.
  intros H. rewrite <- (app_nil_r l) at 1.
  rewrite count_app by now apply no_LF_forallb. simpl. lia.
Qed.

Lemma In_skipn (s : str) (m : nat) (c : codepoint) :
  In c (skipn m s) -> In c s.
Proof.
  intros H. rewrite <- (firstn_skipn m s). apply in_app_iff. now right.
Qed.

Lemma name_end_first_line (l rest : str) :
  ~ In LF l -> ~ then_created (LF :: rest) ->
  name_end (l ++ LF :: rest) = name_end l.
Proof.
  intros Hl Hrest. unfold name_end.
  rewrite count_app by now apply no_LF_forallb.
  rewrite (count_ANY_line l Hl). cbn [count charset_matches].
  replace (negb (LF =? LF)%N) with false by reflexivity.
  rewrite Nat.add_0_r. apply backtrack_ext. intros m Hm. cbn [Nat.add].
  rewrite skipn_app. replace (m - length l) with 0 by lia. cbn [skipn].
  assert (Hs : ~ In LF (skipn m l)) by (intros H; apply Hl; eapply In_skipn, H).
  pose proof (then_created_first_line (skipn m l) rest Hs Hrest) as Hiff.
  rewrite <- !space_created_spec in Hiff.
  destruct (space_created (skipn m l ++ LF :: rest)),
           (space_created (skipn m l)); trivial.
  - destruct Hiff as [H _]. specialize (H eq_refl). discriminate.
  - destruct Hiff as [_ H]. specialize (H eq_refl). discriminate.
Qed.

(** X2: a text that opens with a name (non-empty, on the first line) which
    white space and the token follow never makes [get_resource] raise: it
    returns a name that starts with that one. *)
Theorem get_resource_returns_when_confirmed (captured_io : CapturedIO)
        (name : str) :
  confirms (stdout captured_io) name ->
  exists more, get_resource captured_io = Return (Some (name ++ more)).
Proof.
  intros H. destruct (confirms_name_end _ _ H) as (p & N & Hle).
  rewrite get_resource_name_end, N.
  destruct H as (_ & _ & tl & -> & _).
  exists (firstn (p - length name) tl).
  now rewrite firstn_app, firstn_all2 by lia.
Qed.

Lemma get_resource_returns_when_confirmed_witness :
  exists more,
    get_resource (captured (lit "a b" ++ 9%N :: lit "created and created"))
    = Return (Some (lit "a b" ++ more)).
Proof.
  apply (get_resource_returns_when_confirmed
           (captured (lit "a b" ++ 9%N :: lit "created and created"))
           (lit "a b")).
  repeat split.
  - discriminate.
  - vm_compute. intuition discriminate.
  - exists (9%N :: lit "created and created"). split; [reflexivity|].
    apply space_created_spec. vm_compute. reflexivity.
Defined.

(** X3: a name, one white-space character of any kind, the token, and
    then a rest in which the token does not occur again: [get_resource]
    returns exactly the name, whatever else the rest holds. *)
Theorem get_resource_single_token (name rest : str) (w : codepoint) :
  name <> [] -> ~ In LF name -> is_space w = true ->
  (forall a b, rest <> a ++ created ++ b) ->
  get_resource (captured (name ++ w :: created ++ rest)) = Return (Some name).
Proof.
  intros Hne Hlf Hw Hrest.
  rewrite get_resource_name_end. cbn [stdout captured].
  rewrite name_end_single_separator; trivial.
  - now rewrite firstn_length_app.
  - intros i _. destruct (space_created (skipn i rest)) eqn:E; [|reflexivity].
    apply space_created_spec in E as (ws & tl & _ & _ & E).
    exfalso. apply (Hrest (firstn i rest ++ ws) tl).
    now rewrite <- app_assoc, <- E, firstn_skipn.
Qed.

Lemma get_resource_single_token_witness :
  get_resource (captured (lit "sparkapplication.sparkoperator.k8s.io/horovod-mnist"
                          ++ 9%N :: created ++ [13; 10]%N))
  = Return (Some (lit "sparkapplication.sparkoperator.k8s.io/horovod-mnist")).
Proof.
  apply (get_resource_single_token
           (lit "sparkapplication.sparkoperator.k8s.io/horovod-mnist")
           [13; 10]%N 9%N).
  - discriminate.
  - vm_compute. intuition discriminate.
  - reflexivity.
  - intros a b E. apply (f_equal (@length _)) in E.
    rewrite !length_app, created_letters in E. simpl in E. lia.
Defined.

(** X4: when the first line holds no white space at all, and is empty or
    is followed by a line that does not go on with the token,
    [get_resource] raises, whatever the later lines are: a line
    "<name> created" further down is not found. *)
Theorem get_resource_no_space_first_line (l rest : str) :
  (forall c, In c l -> is_space c = false) ->
  l = [] \/ ~ then_created (LF :: rest) ->
  get_resource (captured (l ++ LF :: rest))
  = Raise (not_created (l ++ LF :: rest)).
Proof.
  intros Hl [->|Hrest]; [now rewrite get_resource_name_end|].
  assert (Hlf : ~ In LF l) by (intros H; now apply Hl in H).
  rewrite get_resource_name_end. cbn [stdout captured].
  rewrite name_end_first_line by assumption.
  replace (name_end l) with (@None nat); [reflexivity|].
  symmetry. apply name_end_None. intros p _.
  destruct (space_created (skipn p l)) eqn:E; [|reflexivity].
  apply space_created_spec in E as (ws & tl & Hne & Hws & E).
  destruct ws as [|c ws]; [congruence|].
  assert (Hc : In c l) by (apply (In_skipn l p); rewrite E; now left).
  specialize (Hl c Hc). rewrite (Hws c) in Hl by now left. discriminate.
Qed.

Lemma get_resource_no_space_first_line_witness :
  get_resource (captured (lit "error:exists" ++ LF :: lit "job/a created"))
  = Raise (not_created (lit "error:exists" ++ LF :: lit "job/a created")).
Proof.
  apply (get_resource_no_space_first_line (lit "error:exists")
                                          (lit "job/a created")).
  - intros c Hc. vm_compute in Hc.
    repeat (destruct Hc as [<-|Hc]; [reflexivity|]). contradiction.
  - right. intros H. apply space_created_spec in H. vm_compute in H.
    discriminate.
Defined.

(** X5: the lines after the first do not count, unless the second goes on
    with the token: the outcome on the whole text is the outcome on its
    first line alone, the error message carrying the whole text. *)
Theorem get_resource_first_line_only (l rest : str) :
  ~ In LF l -> ~ then_created (LF :: rest) ->
  get_resource (captured (l ++ LF :: rest)) =
  match get_resource (captured l) with
  | Return v => Return v
  | Raise _ => Raise (not_created (l ++ LF :: rest))
  end.
Proof.
  intros Hl Hrest. rewrite !get_resource_name_end. cbn [stdout captured].
  rewrite name_end_first_line by assumption.
  destruct (name_end l) as [p|] eqn:N; [|reflexivity].
  apply name_end_Some in N as ([_ Hp] & _).
  pose proof (count_le_length ANY l).
  rewrite firstn_app. replace (p - length l) with 0 by lia.
  now rewrite firstn_0, app_nil_r.
Qed.

Lemma get_resource_first_line_only_witness :
  get_resource (captured (lit "job/a created" ++ LF :: lit "job/b created")) =
  match get_resource (captured (lit "job/a created")) with
  | Return v => Return v
  | Raise _ => Raise (not_created (lit "job/a created" ++ LF :: lit "job/b created"))
  end.
Proof.
  apply (get_resource_first_line_only (lit "job/a created") (lit "job/b created")).
  - vm_compute. intuition discriminate.
  - intros H. apply space_created_spec in H. vm_compute in H. discriminate.
Defined.

(** ** Slices, as the trainer takes them *)








Lemma getitem_slice_step_zero {A : Type} (a : list A) (start stop : option Z) :
  getitem_slice a start stop (Some 0%Z)
  = Raised (ValueError (lit "slice step cannot be zero")).
Proof. reflexivity. Qed.


(** ** [get_dataset] *)

Section GetDataset.

Context {entry : Type} (true_divide_255 : entry -> entry).
Implicit Types (f : NpzFile entry) (X Y Xt Yt : ndarray entry).



(** X6: a size of zero is refused at the first slice: as soon as the
    archive holds [x_train], [get_dataset] raises the [ValueError] of the
    slice, whatever the rank and whether or not the other arrays are
    there. *)
Theorem get_dataset_zero_size f X (rank : Z) :
  npz_getitem f (lit "x_train") = Done X ->
  get_dataset true_divide_255 f rank 0
  = Raised (ValueError (lit "slice step cannot be zero")).
Proof.
  intros H. unfold get_dataset. rewrite H. cbn [bind].
  now rewrite getitem_slice_step_zero.
Qed.






End GetDataset.

Lemma get_dataset_zero_size_witness :
  get_dataset divide_255 [(lit "x_train", grey [0; 255; 51]%Z)] 1 0
  = Raised (ValueError (lit "slice step cannot be zero")).
Proof.
  apply (get_dataset_zero_size divide_255
           [(lit "x_train", grey [0; 255; 51]%Z)] (grey [0; 255; 51]%Z) 1).
  reflexivity.
Defined.






(** ** [predict_number] *)

Lemma getitem_one {A : Type} (a : list A) (i : Z) (x : A) :
  (0 <= i)%Z -> nth_error a (Z.to_nat i) = Some x ->
  getitem_slice a (Some i) (Some (i + 1)%Z) None = Done [x].
Proof.
  intros Hi Hx.
  assert (Hn : (i < Z.of_nat (length a))%Z).
  { assert (Z.to_nat i < length a) by (apply nth_error_Some; congruence). lia. }
  unfold getitem_slice, slice_indices, adjust_index. cbn [Z.eqb Z.ltb Z.compare].
  destruct (Z.ltb_spec i 0); [lia|].
  destruct (Z.leb_spec (Z.of_nat (length a)) i); [lia|].
  destruct (Z.ltb_spec (i + 1) 0); [lia|].
  destruct (Z.leb_spec (Z.of_nat (length a)) (i + 1)).
  - destruct (Z.ltb_spec i (Z.of_nat (length a))); [|lia].
    replace (Z.of_nat (length a) - i - 1)%Z with 0%Z by lia.
    cbn [bind]. change (Z.to_nat (0 / 1 + 1)) with 1.
    cbn [take_stride]. now rewrite Hx.
  - destruct (Z.ltb_spec i (i + 1)); [|lia].
    replace (i + 1 - i - 1)%Z with 0%Z by lia.
    cbn [bind]. change (Z.to_nat (0 / 1 + 1)) with 1.
    cbn [take_stride]. now rewrite Hx.
Qed.

Lemma getitem_one_empty {A : Type} (a : list A) (i : Z) :
  i = (-1)%Z \/ (Z.of_nat (length a) <= i)%Z ->
  getitem_slice a (Some i) (Some (i + 1)%Z) None = Done [].
Proof.
  intros Hi.
  unfold getitem_slice, slice_indices, adjust_index. cbn [Z.eqb Z.ltb Z.compare].
  repeat match goal with
         | |- context [Z.ltb ?x ?y] => destruct (Z.ltb_spec x y); try lia
         | |- context [Z.leb ?x ?y] => destruct (Z.leb_spec x y); try lia
         end; reflexivity.
Qed.

Section PredictNumber.

Context {entry Model prediction : Type}.
Context (predict : Model -> ndarray entry -> prediction).
Context (argmax : prediction -> Z).

(** X11: for an index within the test images, [predict_number] asks the
    model about that one image, as a batch of one, and prints the index
    and the most likely class. *)
Theorem predict_number_in_range (model : Model) (x_test : ndarray entry)
        (image_index : Z) (image : entry) :
  (0 <= image_index)%Z ->
  nth_error x_test (Z.to_nat image_index) = Some image ->
  predict_number predict argmax model x_test image_index =
  Done (lit "Model prediction for index " ++ str_of_int image_index
        ++ lit ": " ++ str_of_int (argmax (predict model [image])) ++ [LF]).
Proof.
  intros Hi Hx. unfold predict_number.
  now rewrite (getitem_one x_test image_index image Hi Hx).
Qed.

(** X12: for the index -1, and for an index past the last image, the
    slice [x_test[i:i+1]] is empty, so that [predict_number] does with
    the model just what it does when there is no test image at all: -1
    does not stand for the last image here. *)
Theorem predict_number_empty_batch (model : Model) (x_test : ndarray entry)
        (image_index : Z) :
  image_index = (-1)%Z \/ (Z.of_nat (length x_test) <= image_index)%Z ->
  getitem_slice x_test (Some image_index) (Some (image_index + 1)%Z) None
  = Done [] /\
  predict_number predict argmax model x_test image_index
  = predict_number predict argmax model [] image_index.
Proof.
  intros Hi. split; [now apply getitem_one_empty|].
  unfold predict_number.
  rewrite (getitem_one_empty x_test image_index Hi).
  rewrite (getitem_one_empty (@nil entry) image_index); [reflexivity|].
  destruct Hi as [->|Hi]; [now left | right; cbn; lia].
Qed.

End PredictNumber.

Lemma predict_number_in_range_witness :
  predict_number (fun (_ : unit) (batch : ndarray Q) => batch)
                 (fun p => Z.of_nat (length p)) tt (grey [102; 204]%Z) 1 =
  Done (lit "Model prediction for index " ++ str_of_int 1
        ++ lit ": " ++ str_of_int (Z.of_nat (length [QArith_base.inject_Z 204]))
        ++ [LF]).
Proof.
  apply (predict_number_in_range (fun (_ : unit) (batch : ndarray Q) => batch)
                                 (fun p => Z.of_nat (length p))
                                 tt (grey [102; 204]%Z) 1 (QArith_base.inject_Z 204)).
  - lia.
  - reflexivity.
Defined.

Lemma predict_number_empty_batch_witness :
  getitem_slice (grey [102; 204]%Z) (Some (-1)%Z) (Some (-1 + 1)%Z) None
  = Done [] /\
  predict_number (fun (_ : unit) (batch : ndarray Q) => batch)
                 (fun p => Z.of_nat (length p)) tt (grey [102; 204]%Z) (-1)
  = predict_number (fun (_ : unit) (batch : ndarray Q) => batch)
                   (fun p => Z.of_nat (length p)) tt [] (-1).
Proof.
  apply (predict_number_empty_batch (fun (_ : unit) (batch : ndarray Q) => batch)
                                    (fun p => Z.of_nat (length p))
                                    tt (grey [102; 204]%Z) (-1)).
  now left.
Defined.

(** ** [add_suffix] *)

Lemma size_nat_bound (n : N) : (n < 2 ^ N.of_nat (N.size_nat n))%N.
Proof.
  destruct n as [|p]; [reflexivity|]. cbn [N.size_nat].
  induction p as [p IH|p IH|]; cbn [Pos.size_nat];
    rewrite ?Nat2N.inj_succ, ?N.pow_succ_r'; lia.
Qed.

Lemma hex_lsd_value (fuel : nat) (n : N) :
  (n < 2 ^ N.of_nat fuel)%N -> value_lsd (hex_lsd fuel n) = n.
Proof.
  revert n. induction fuel as [|fuel IH]; intros n Hn.
  - cbn in *. lia.
  - cbn [hex_lsd]. destruct (N.eqb_spec n 0) as [->|Hz]; [reflexivity|].
    cbn [value_lsd fold_right]. fold (value_lsd (hex_lsd fuel (n / 16))).
    rewrite Nat2N.inj_succ, N.pow_succ_r' in Hn.
    rewrite IH.
    + pose proof (N.div_mod n 16 ltac:(lia)). lia.
    + apply N.Div0.div_lt_upper_bound; lia.
Qed.

Lemma hex_lsd_digits (fuel : nat) (n : N) :
  Forall (fun d => (d < 16)%N) (hex_lsd fuel n).
Proof.
  revert n. induction fuel as [|fuel IH]; intros n; cbn [hex_lsd].
  - constructor.
  - destruct (n =? 0)%N; constructor; [|apply IH].
    apply N.mod_lt. lia.
Qed.

Lemma hex_lsd_length (fuel k : nat) (n : N) :
  (n < 16 ^ N.of_nat k)%N -> length (hex_lsd fuel n) <= k.
Proof.
  revert k n. induction fuel as [|fuel IH]; intros k n Hn; cbn [hex_lsd].
  - cbn. lia.
  - destruct (N.eqb_spec n 0) as [->|Hz]; [cbn; lia|].
    destruct k as [|k]; [cbn in Hn; lia|].
    rewrite Nat2N.inj_succ, N.pow_succ_r' in Hn.
    cbn [length]. apply le_n_S, IH.
    apply N.Div0.div_lt_upper_bound; lia.
Qed.

Lemma hex_val_char (d : N) : (d < 16)%N -> hex_val (hex_char d) = d.
Proof.
  intros Hd. unfold hex_val, hex_char.
  destruct (N.ltb_spec d 10).
  - destruct (N.ltb_spec (48 + d) 58); lia.
  - destruct (N.ltb_spec (87 + d) 58); lia.
Qed.

Lemma hex_char_lower (d : N) : (d < 16)%N -> is_hex_lower (hex_char d) = true.
Proof.
  intros Hd. unfold is_hex_lower, hex_char.
  destruct (N.ltb_spec d 10); apply orb_true_iff; [left|right];
    apply andb_true_iff; split; apply N.leb_le; lia.
Qed.

Lemma int_of_hex_digits (ds : list N) :
  Forall (fun d => (d < 16)%N) ds ->
  int_of_hex (map hex_char (rev ds)) = value_lsd ds.
Proof.
  unfold int_of_hex. induction 1 as [|d ds Hd _ IH]; [reflexivity|].
  cbn [rev]. rewrite map_app, fold_left_app, IH. cbn [map fold_left].
  rewrite hex_val_char by assumption.
  change (value_lsd (d :: ds)) with (d + 16 * value_lsd ds)%N. lia.
Qed.

Lemma int_of_hex_zeros (k : nat) (s : str) :
  int_of_hex (repeat 48%N k ++ s) = int_of_hex s.
Proof.
  unfold int_of_hex. rewrite fold_left_app. f_equal.
  induction k as [|k IH]; [reflexivity | exact IH].
Qed.

Lemma int_of_hex_format_x (n : N) : int_of_hex (format_x n) = n.
Proof.
  unfold format_x. destruct (N.eqb_spec n 0) as [->|Hz]; [reflexivity|].
  rewrite int_of_hex_digits by apply hex_lsd_digits.
  apply hex_lsd_value, size_nat_bound.
Qed.

(** Reading the hexadecimal form of a UUID back gives its integer. *)
Lemma int_of_hex_UUID_hex (u : UUID) : int_of_hex (UUID_hex u) = uuid_int u.
Proof.
  unfold UUID_hex, zero_pad. now rewrite int_of_hex_zeros, int_of_hex_format_x.
Qed.

Lemma UUID_hex_length (u : UUID) :
  (uuid_int u < 2 ^ 128)%N -> length (UUID_hex u) = 32.
Proof.
  intros Hu. unfold UUID_hex, zero_pad.
  assert (length (format_x (uuid_int u)) <= 32).
  { unfold format_x. destruct (uuid_int u =? 0)%N; [cbn; lia|].
    rewrite length_map, length_rev. now apply hex_lsd_length. }
  rewrite length_app, repeat_length. apply Nat.sub_add. exact H.
Qed.

Lemma UUID_hex_lower (u : UUID) :
  Forall (fun c => is_hex_lower c = true) (UUID_hex u).
Proof.
  unfold UUID_hex, zero_pad. apply Forall_app. split.
  - apply Forall_forall. intros c Hc. apply repeat_spec in Hc. now subst.
  - unfold format_x. destruct (uuid_int u =? 0)%N; [now repeat constructor|].
    apply Forall_forall. intros c Hc.
    apply in_map_iff in Hc as (d & <- & Hd). apply in_rev in Hd.
    apply hex_char_lower.
    exact (proj1 (Forall_forall _ _) (hex_lsd_digits _ _) d Hd).
Qed.

(** X13: [add_suffix(name)] is [name], an underscore and 32 lower-case
    hexadecimal digits that read back as the UUID drawn: 33 characters
    more than [name], whatever [name] is. *)
Theorem add_suffix_shape (name : str) (uuid4 : UUID) :
  (uuid_int uuid4 < 2 ^ 128)%N ->
  exists h,
    add_suffix name uuid4 = name ++ lit "_" ++ h /\
    length h = 32 /\
    Forall (fun c => is_hex_lower c = true) h /\
    int_of_hex h = uuid_int uuid4 /\
    length (add_suffix name uuid4) = length name + 33.
Proof.
  intros Hu. exists (UUID_hex uuid4). unfold add_suffix.
  repeat split.
  - now apply UUID_hex_length.
  - apply UUID_hex_lower.
  - apply int_of_hex_UUID_hex.
  - rewrite !length_app, UUID_hex_length by assumption. cbn. lia.
Qed.

Lemma add_suffix_shape_witness :
  exists h,
    add_suffix (lit "run") (mkUUID 48879) = lit "run" ++ lit "_" ++ h /\
    length h = 32 /\
    Forall (fun c => is_hex_lower c = true) h /\
    int_of_hex h = uuid_int (mkUUID 48879) /\
    length (add_suffix (lit "run") (mkUUID 48879)) = length (lit "run") + 33.
Proof.
  apply (add_suffix_shape (lit "run") (mkUUID 48879)). reflexivity.
Defined.

(** X14: two suffixed names are equal only if they come from the same
    name and the same UUID: with distinct UUIDs, or distinct names, the
    results differ, also when a name itself holds underscores or digits. *)
Theorem add_suffix_injective (name1 name2 : str) (u1 u2 : UUID) :
  (uuid_int u1 < 2 ^ 128)%N -> (uuid_int u2 < 2 ^ 128)%N ->
  add_suffix name1 u1 = add_suffix name2 u2 ->
  name1 = name2 /\ u1 = u2.
Proof.
  intros H1 H2 E. unfold add_suffix in E.
  assert (Hlen : length name1 = length name2).
  { apply (f_equal (@length _)) in E.
    rewrite !length_app, !UUID_hex_length in E by assumption. lia. }
  assert (Hn : name1 = name2).
  { apply (f_equal (firstn (length name1))) in E.
    rewrite firstn_length_app, Hlen, firstn_length_app in E. exact E. }
  split; [exact Hn|]. subst name2.
  apply app_inv_head in E. apply app_inv_head in E.
  apply (f_equal int_of_hex) in E. rewrite !int_of_hex_UUID_hex in E.
  destruct u1, u2. cbn in E. now subst.
Qed.

Lemma add_suffix_injective_witness :
  lit "run" = lit "run" /\ mkUUID 48879 = mkUUID 48879.
Proof.
  apply (add_suffix_injective (lit "run") (lit "run")
                              (mkUUID 48879) (mkUUID 48879));
    reflexivity.
Defined.

(** ** The Docker credentials *)

Lemma lstrip_spaces (ws t : str) :
  all_space ws -> lstrip (ws ++ t) = lstrip t.
Proof.
  induction ws as [|c ws IH]; intros H; [reflexivity|].
  cbn [app lstrip]. rewrite (H c) by now left.
  apply IH. intros c' Hc'. apply H. now right.
Qed.

Lemma lstrip_split (s : str) :
  exists ws, s = ws ++ lstrip s /\ all_space ws.
Proof.
  induction s as [|c s (ws & E & Hws)].
  - exists []. split; [reflexivity | intros c []].
  - cbn [lstrip]. destruct (is_space c) eqn:Ec.
    + exists (c :: ws). split; [cbn; now f_equal|].
      intros c' [<-|Hc']; auto.
    + exists []. split; [reflexivity | intros c' []].
Qed.

Lemma lstrip_head (s : str) (c : codepoint) (tl : str) :
  lstrip s = c :: tl -> is_space c = false.
Proof.
  induction s as [|c' s IH]; cbn [lstrip]; [discriminate|].
  destruct (is_space c') eqn:E; [exact IH|]. now intros [= <- _].
Qed.

Lemma all_space_rev (ws : str) : all_space ws -> all_space (rev ws).
Proof. intros H c Hc. apply H. now apply in_rev. Qed.

(** X15: the credentials are the captured output without the white space
    at its end, and nothing else is removed: they are the one text [a],
    empty or ending in a character that is not white space, such that the
    output is [a] followed by white space only. *)
Theorem docker_credentials_spec (creds : CapturedIO) (a : str) :
  docker_credentials creds = a <->
  (exists ws, stdout creds = a ++ ws /\ all_space ws) /\
  (a = [] \/ exists a' c, a = a' ++ [c] /\ is_space c = false).
Proof.
  unfold docker_credentials, rstrip. split.
  - intros <-. destruct (lstrip_split (rev (stdout creds))) as (ws & E & Hws).
    split.
    + exists (rev ws). split; [|now apply all_space_rev].
      rewrite <- rev_app_distr, <- E. symmetry. apply rev_involutive.
    + destruct (lstrip (rev (stdout creds))) as [|c tl] eqn:L; [now left|].
      right. exists (rev tl), c. split; [reflexivity|].
      now apply lstrip_head in L.
  - intros [(ws & -> & Hws) Ha].
    rewrite rev_app_distr, lstrip_spaces by now apply all_space_rev.
    destruct Ha as [->|(a' & c & -> & Hc)]; [reflexivity|].
    rewrite rev_app_distr. cbn [rev app lstrip]. rewrite Hc.
    cbn [rev]. now rewrite rev_involutive.
Qed.
